(** * Catalan numbers modulo 1000000007: [Week_1/assign_1_code.cpp]

    A shallow embedding of [computeCatalan] and [main], with the machine
    arithmetic of the C++ source written out: [int] (32 bits) and
    [long long] (64 bits) are mathematical integers together with their
    representable range, and an operation whose result leaves the range is
    undefined behaviour.  The
    [std::vector] is a list; [operator[]] outside the vector is undefined
    behaviour as well.  The two nested [for] loops are a transition system
    over the loop variables and the table, run with fuel. *)

From stdpp Require Import base numbers list strings pretty.
From Stdlib Require Import Ascii.

Local Open Scope Z_scope.

(** ** Outcomes of a computation *)

(** The ways in which an evaluation step has no defined result. *)
Inductive undefined : Set :=
  | IntOverflow        (* signed overflow in [int] arithmetic *)
  | LongLongOverflow   (* signed overflow in [long long] arithmetic *)
  | DivisionByZero     (* [%] by zero *)
  | OutOfRange.        (* [operator[]] at a position >= size() *)

(** The exception classes of <stdexcept> that matter here: the vector
    constructor throws [length_error]; [invalid_argument] is the class a
    validating implementation would throw. *)
Inductive exception : Set :=
  | length_error
  | invalid_argument.

Inductive outcome (A : Type) : Type :=
  | Ok (a : A)
  | Undefined (u : undefined)
  | Thrown (e : exception)
  | OutOfFuel.

Arguments Ok {A} a.
Arguments Undefined {A} u.
Arguments Thrown {A} e.
Arguments OutOfFuel {A}.

#[global] Instance outcome_ret : MRet outcome := @Ok.
#[global] Instance outcome_bind : MBind outcome := λ A B f m,
  match m with
  | Ok a => f a
  | Undefined u => Undefined u
  | Thrown e => Thrown e
  | OutOfFuel => OutOfFuel
  end.

(** ** Machine integers *)

Definition INT_MIN : Z := - 2 ^ 31.
Definition INT_MAX : Z := 2 ^ 31 - 1.
Definition LLONG_MIN : Z := - 2 ^ 63.
Definition LLONG_MAX : Z := 2 ^ 63 - 1.

Definition as_int (z : Z) : outcome Z :=
  if (INT_MIN <=? z) && (z <=? INT_MAX) then Ok z else Undefined IntOverflow.

Definition as_llong (z : Z) : outcome Z :=
  if (LLONG_MIN <=? z) && (z <=? LLONG_MAX) then Ok z
  else Undefined LongLongOverflow.

Definition int_add (a b : Z) : outcome Z := as_int (a + b).
Definition int_sub (a b : Z) : outcome Z := as_int (a - b).

Definition ll_add (a b : Z) : outcome Z := as_llong (a + b).
Definition ll_mul (a b : Z) : outcome Z := as_llong (a * b).

(** [a % b] on [long long]: the remainder of the division that truncates
    towards zero. *)
Definition ll_rem (a b : Z) : outcome Z :=
  if b =? 0 then Undefined DivisionByZero
  else if (a =? LLONG_MIN) && (b =? -1) then Undefined LongLongOverflow
  else Ok (Z.rem a b).

(** [const int MODULO = 1000000007;] *)
Definition MODULO : Z := 1000000007.

(** ** [std::vector<long long>] *)

(** Conversion of an [int] to the 64-bit unsigned [size_type]. *)
Definition to_size_t (z : Z) : Z := z `mod` 2 ^ 64.

(** [max_size()] of a vector of 8-byte elements: PTRDIFF_MAX / 8. *)
Definition max_size : Z := (2 ^ 63 - 1) `div` 8.

(** [vector<long long> v(n, x)].  Storage is assumed to be available: the
    only failure is the constructor's check against [max_size()]. *)
Definition vector_fill (n x : Z) : outcome (list Z) :=
  let n' := to_size_t n in
  if max_size <? n' then Thrown length_error
  else Ok (replicate (Z.to_nat n') x).

(** [v[i]] as an rvalue. *)
Definition vec_read (v : list Z) (i : Z) : outcome Z :=
  match v !! Z.to_nat (to_size_t i) with
  | Some x => Ok x
  | None => Undefined OutOfRange
  end.

(** [v[i] = x]. *)
Definition vec_write (v : list Z) (i x : Z) : outcome (list Z) :=
  let j := Z.to_nat (to_size_t i) in
  if (j <? length v)%nat then Ok (<[j := x]> v) else Undefined OutOfRange.

(** ** Running a loop as a transition system *)

Section Run.
Context {S R : Type} (step : S → outcome (S + R)).

(** The state after [n] transitions, or the result when the system
    halted before. *)
Fixpoint steps (n : nat) (s : S) : outcome (S + R) :=
  match n with
  | O => Ok (inl s)
  | Datatypes.S n' =>
      r ← step s;
      match r with
      | inl s' => steps n' s'
      | inr v => Ok (inr v)
      end
  end.

Definition run (fuel : nat) (s : S) : outcome R :=
  r ← steps fuel s;
  match r with
  | inl _ => OutOfFuel
  | inr v => Ok v
  end.
End Run.

(** ** [computeCatalan] *)

(** The control points of the two nested loops. *)
Inductive config : Type :=
  | Outer (catalan : list Z) (idx : Z)     (* at the test [idx <= limit] *)
  | Inner (catalan : list Z) (idx k : Z).  (* at the test [k < idx] *)

(** [catalan[idx] = (catalan[idx] + (catalan[k] * catalan[idx - k - 1])
                     % MODULO) % MODULO;] *)
Definition accumulate (catalan : list Z) (idx k : Z) : outcome (list Z) :=
  cur ← vec_read catalan idx;
  a ← vec_read catalan k;
  d ← int_sub idx k;
  j ← int_sub d 1;
  b ← vec_read catalan j;
  p ← ll_mul a b;
  t ← ll_rem p MODULO;
  s ← ll_add cur t;
  r ← ll_rem s MODULO;
  vec_write catalan idx r.

Definition computeCatalan_step (limit : Z) (c : config)
  : outcome (config + list Z) :=
  match c with
  | Outer catalan idx =>
      if idx <=? limit
      then Ok (inl (Inner catalan idx 0))          (* [int k = 0] *)
      else Ok (inr catalan)                        (* [return catalan;] *)
  | Inner catalan idx k =>
      if k <? idx
      then catalan' ← accumulate catalan idx k;
           k' ← int_add k 1;                       (* [++k] *)
           Ok (inl (Inner catalan' idx k'))
      else idx' ← int_add idx 1;                   (* [++idx] *)
           Ok (inl (Outer catalan idx'))
  end.

(** [vector<long long> catalan(limit + 1, 0); catalan[0] = 1;] and
    [int idx = 1]. *)
Definition computeCatalan_init (limit : Z) : outcome config :=
  n ← int_add limit 1;
  catalan ← vector_fill n 0;
  catalan ← vec_write catalan 0 1;
  Ok (Outer catalan 1).

Definition computeCatalan (fuel : nat) (limit : Z) : outcome (list Z) :=
  c ← computeCatalan_init limit;
  run (computeCatalan_step limit) fuel c.

(** ** [main] *)

Definition newline : string := String (Ascii.ascii_of_nat 10) EmptyString.

(** [cout << x] for a [long long] [x]: its decimal digits, with a leading
    minus sign when negative. *)
Definition show_llong (x : Z) : string := pretty x.

(** [for (int m = 1; m <= maxN; ++m) cout << result[m] << " ";]
    The state is the text written so far and [m]. *)
Definition print_step (result : list Z) (maxN : Z) (s : string * Z)
  : outcome (string * Z + string) :=
  let '(out, m) := s in
  if m <=? maxN
  then x ← vec_read result m;
       m' ← int_add m 1;                           (* [++m] *)
       Ok (inl (out +:+ show_llong x +:+ " ", m'))
  else Ok (inr out).

(** The text written to standard output and the exit status. *)
Definition main (fuel : nat) : outcome (string * Z) :=
  let maxN := 100 in
  result ← computeCatalan fuel maxN;
  out ← run (print_step result maxN) fuel ("", 1);
  Ok (out +:+ newline, 0).

(** * Notions used in the statements *)

(** ** The table as the recurrence describes it *)

Definition in_range (x : Z) : Prop := 0 ≤ x < MODULO.

(** The element at position [i], for positions inside the table. *)
Definition entry (v : list Z) (i : nat) : Z := default 0 (v !! i).

(** The [k]-th summand of the recurrence for index [idx]. *)
Definition term (v : list Z) (idx k : nat) : Z :=
  (entry v k * entry v (idx - 1 - k)) `mod` MODULO.

(** The value of [catalan[idx]] after [k] rounds of the inner loop. *)
Fixpoint partial (v : list Z) (idx k : nat) : Z :=
  match k with
  | O => 0
  | Datatypes.S k' => (partial v idx k' + term v idx k') `mod` MODULO
  end.

(** The sum of [f 0], ..., [f (n - 1)]. *)
Fixpoint sum_below (f : nat → Z) (n : nat) : Z :=
  match n with
  | O => 0
  | Datatypes.S n' => sum_below f n' + f n'
  end.

(** ** The loop invariant and the variant *)

(** The table [c] of [limit + 1 = S L] elements when the outer loop is at
    index [i] and the inner loop has done [k] rounds: the elements below
    [i] satisfy the recurrence, element [i] holds the running sum, and the
    elements above [i] still hold the initial zero. *)
Record table_inv (L : nat) (c : list Z) (i k : nat) : Prop := TableInv {
  inv_length : length c = Datatypes.S L;
  inv_base : c !! 0%nat = Some 1;
  inv_done : ∀ j, (1 ≤ j < i)%nat → c !! j = Some (partial c j j);
  inv_current : (i ≤ L)%nat → c !! i = Some (partial c i k);
  inv_rest : ∀ j, (i < j ≤ L)%nat → c !! j = Some 0;
  inv_range : Forall in_range c;
}.

(** The table once the outer loop is over. *)
Definition complete (L : nat) (v : list Z) : Prop :=
  table_inv L v (Datatypes.S L) 0.

(** The transitions of [rounds] rounds of the outer loop that start at
    index [idx]: round [i] takes [i + 1] tests of the inner loop and one
    of the outer loop. *)
Fixpoint outer_rest (idx : Z) (rounds : nat) : Z :=
  match rounds with
  | O => 0
  | Datatypes.S r => idx + 2 + outer_rest (idx + 1) r
  end.

(** The invariant of the two loops of [computeCatalan(limit)]. *)
Definition config_inv (limit : Z) (c : config) : Prop :=
  match c with
  | Outer catalan idx =>
      1 ≤ idx ≤ limit + 1 ∧ table_inv (Z.to_nat limit) catalan (Z.to_nat idx) 0
  | Inner catalan idx k =>
      1 ≤ idx ≤ limit ∧ 0 ≤ k ≤ idx ∧
      table_inv (Z.to_nat limit) catalan (Z.to_nat idx) (Z.to_nat k)
  end.

(** The transitions left before the one that returns. *)
Definition variant (limit : Z) (c : config) : Z :=
  match c with
  | Outer _ idx => outer_rest idx (Z.to_nat (limit + 1 - idx))
  | Inner _ idx k =>
      (idx - k) + 1 + outer_rest (idx + 1) (Z.to_nat (limit - idx))
  end.

(** ** Calls and their states *)

(** The call [computeCatalan(limit)] returns [v]: every run with enough
    fuel does. *)
Definition returns (limit : Z) (v : list Z) : Prop :=
  ∃ N, ∀ fuel, (N ≤ fuel)%nat → computeCatalan fuel limit = Ok v.

Definition table_of (c : config) : list Z :=
  match c with
  | Outer catalan _ => catalan
  | Inner catalan _ _ => catalan
  end.

(** The call is in state [c] after [n] transitions. *)
Definition reaches (limit : Z) (n : nat) (c : config) : Prop :=
  (c0 ← computeCatalan_init limit; steps (computeCatalan_step limit) n c0)
  = Ok (inl c).

Definition is_Ok {A} (m : outcome A) : Prop := ∃ a, m = Ok a.

(** The text of one printed value: its digits and a space. *)
Definition printed (x : Z) : string := show_llong x +:+ " ".

(** ** The Catalan numbers *)

(** [C_0; ...; C_n], by the recurrence over the integers, without any
    reduction: C_0 = 1 and C_(n+1) is the sum of C_k * C_(n-k) for k from 0
    to n. *)
Fixpoint catalan_numbers (n : nat) : list Z :=
  match n with
  | O => [1]
  | Datatypes.S n' =>
      let l := catalan_numbers n' in
      l ++ [sum_below (λ k, entry l k * entry l (n' - k)) (Datatypes.S n')]
  end.

Definition Catalan (n : nat) : Z := entry (catalan_numbers n) n.

(** ** The loop of [main] *)

(** The index [idx] of the outer loop in a state of [computeCatalan]. *)
Definition index_of (c : config) : Z :=
  match c with
  | Outer _ idx => idx
  | Inner _ idx _ => idx
  end.

(** The text of a sequence of values, each one followed by a space. *)
Definition printed_line (l : list Z) : string :=
  foldr (λ x rest, printed x +:+ rest) "" l.

(** The characters of a string. *)
Definition chars (s : string) : list Ascii.ascii := String.list_ascii_of_string s.

(** A decimal digit: a character from "0" (code 48) to "9" (code 57). *)
Definition is_digit (c : Ascii.ascii) : Prop :=
  (48 ≤ Ascii.nat_of_ascii c ≤ 57)%nat.

(** * Verification *)

(** ** The outcome monad *)

Lemma bind_Ok {A B} (a : A) (f : A → outcome B) : (Ok a ≫= f) = f a.
Proof. reflexivity. Qed.

(** ** Facts about [steps] and [run], for any transition function *)

Section RunFacts.
Context {S R : Type} (step : S → outcome (S + R)).

Lemma steps_add n m s :
  steps step (n + m) s =
  r ← steps step n s;
  match r with
  | inl s' => steps step m s'
  | inr v => Ok (inr v)
  end.
Proof.
  revert s. induction n as [|n IH]; intros s; [reflexivity|].
  cbn [Nat.add steps].
  destruct (step s) as [[s'|v]|u|e|]; cbn; auto.
Qed.

(** A run that halted, normally or not, is not changed by more fuel. *)
Lemma run_more_fuel n m s :
  run step n s ≠ OutOfFuel → (n ≤ m)%nat → run step m s = run step n s.
Proof.
  intros Hhalt Hle.
  replace m with (n + (m - n))%nat by lia.
  unfold run in *. rewrite steps_add.
  destruct (steps step n s) as [[s'|v]|u|e|]; cbn in *; congruence.
Qed.

(** A run that is out of fuel was so with any smaller fuel. *)
Lemma run_less_fuel n m s :
  run step m s = OutOfFuel → (n ≤ m)%nat → run step n s = OutOfFuel.
Proof.
  intros Hout Hle.
  assert (run step n s ≠ OutOfFuel → run step n s = OutOfFuel) as Hn.
  { intros Hne. by rewrite <- Hout, (run_more_fuel n m s Hne Hle). }
  destruct (run step n s); first [done | by apply Hn].
Qed.


(** An invariant [inv] with a variant [variant] that every transition
    lowers by one, and that is zero exactly at the halting transition. *)
Context (inv : S → Prop) (post : R → Prop) (variant : S → Z).

Hypothesis variant_nonneg : ∀ s, inv s → 0 ≤ variant s.
Hypothesis progress : ∀ s, inv s →
  ∃ r, step s = Ok r ∧
    match r with
    | inl s' => inv s' ∧ variant s = 1 + variant s'
    | inr v => post v ∧ variant s = 0
    end.

Lemma steps_safe n s :
  inv s →
  ∃ r, steps step n s = Ok r ∧
    match r with inl s' => inv s' | inr v => post v end.
Proof.
  revert s. induction n as [|n IH]; intros s Hs; [by exists (inl s)|].
  destruct (progress s Hs) as ([s'|v] & Hstep & H); cbn; rewrite Hstep; cbn.
  - apply IH, H.
  - exists (inr v). by destruct H.
Qed.

Lemma steps_variant n s :
  inv s → variant s = Z.of_nat n →
  ∃ s' v, steps step n s = Ok (inl s') ∧ inv s' ∧
          step s' = Ok (inr v) ∧ post v.
Proof.
  revert s. induction n as [|n IH]; intros s Hs Hvar.
  - destruct (progress s Hs) as ([s'|v] & Hstep & H1 & H2).
    + pose proof (variant_nonneg s' H1). lia.
    + by exists s, v.
  - destruct (progress s Hs) as ([s'|v] & Hstep & H1 & H2); [|lia].
    destruct (IH s' H1) as (s'' & v & ? & ? & ? & ?); [lia|].
    exists s'', v. cbn. rewrite Hstep. by cbn.
Qed.

(** From a state of the invariant the run returns, after exactly
    [variant s + 1] transitions. *)
Lemma run_variant s :
  inv s →
  ∃ v, post v ∧
    ∀ fuel, run step fuel s =
            if decide (variant s < Z.of_nat fuel) then Ok v else OutOfFuel.
Proof.
  intros Hs. pose proof (variant_nonneg s Hs) as Hnn.
  destruct (steps_variant (Z.to_nat (variant s)) s Hs) as (s' & v & H1 & _ & H2 & H3);
    [lia|].
  exists v. split; [done|]. intros fuel.
  assert (Hlast : run step (Datatypes.S (Z.to_nat (variant s))) s = Ok v).
  { unfold run. replace (Datatypes.S (Z.to_nat (variant s)))
      with (Z.to_nat (variant s) + 1)%nat by lia.
    rewrite steps_add, H1. cbn. rewrite H2. done. }
  assert (Hbefore : run step (Z.to_nat (variant s)) s = OutOfFuel).
  { unfold run. by rewrite H1. }
  destruct (decide (variant s < Z.of_nat fuel)).
  - rewrite <- Hlast. apply run_more_fuel; [congruence|lia].
  - eapply run_less_fuel; [exact Hbefore|lia].
Qed.
End RunFacts.

(** ** Machine arithmetic inside the representable range *)

Lemma as_int_Ok z : INT_MIN ≤ z ≤ INT_MAX → as_int z = Ok z.
Proof.
  intros H. unfold as_int.
  destruct (Z.leb_spec INT_MIN z), (Z.leb_spec z INT_MAX); cbn; [done|lia..].
Qed.

Lemma as_llong_Ok z : LLONG_MIN ≤ z ≤ LLONG_MAX → as_llong z = Ok z.
Proof.
  intros H. unfold as_llong.
  destruct (Z.leb_spec LLONG_MIN z), (Z.leb_spec z LLONG_MAX); cbn; [done|lia..].
Qed.

(** On a non-negative dividend the truncating [%] is the mathematical
    remainder. *)
Lemma ll_rem_MODULO a : 0 ≤ a → ll_rem a MODULO = Ok (a `mod` MODULO).
Proof.
  intros Ha. unfold ll_rem.
  change (MODULO =? 0) with false. change (MODULO =? -1) with false.
  rewrite andb_false_r. f_equal. apply Z.rem_mod_nonneg; [done|reflexivity].
Qed.

Lemma to_size_t_small i : 0 ≤ i < 2 ^ 64 → to_size_t i = i.
Proof. apply Z.mod_small. Qed.

Lemma vec_read_Ok v i x :
  0 ≤ i < 2 ^ 64 → v !! Z.to_nat i = Some x → vec_read v i = Ok x.
Proof. intros Hi Hx. unfold vec_read. by rewrite to_size_t_small, Hx. Qed.

Lemma vec_write_Ok v i x :
  0 ≤ i < 2 ^ 64 → i < Z.of_nat (length v) →
  vec_write v i x = Ok (<[Z.to_nat i := x]> v).
Proof.
  intros Hi Hlen. unfold vec_write. rewrite to_size_t_small by done.
  destruct (Nat.ltb_spec (Z.to_nat i) (length v)); [done|lia].
Qed.

(** ** Facts about the recurrence *)

Lemma entry_lookup v i x : v !! i = Some x → entry v i = x.
Proof. unfold entry. by intros ->. Qed.

Lemma lookup_entry v i : (i < length v)%nat → v !! i = Some (entry v i).
Proof.
  intros H. destruct (lookup_lt_is_Some_2 v i H) as [x Hx].
  by rewrite Hx, (entry_lookup _ _ _ Hx).
Qed.

Lemma entry_in_range v i :
  Forall in_range v → (i < length v)%nat → in_range (entry v i).
Proof.
  intros Hv Hi. eapply Forall_lookup_1; [exact Hv|]. by apply lookup_entry.
Qed.

Lemma term_in_range v idx k : in_range (term v idx k).
Proof. unfold term, in_range. apply Z.mod_pos_bound. reflexivity. Qed.

Lemma partial_in_range v idx k : in_range (partial v idx k).
Proof.
  destruct k; cbn; [by compute|]. apply Z.mod_pos_bound. reflexivity.
Qed.

(** [partial] reads the table below [idx] only. *)
Lemma partial_ext v w idx k :
  (k ≤ idx)%nat → (∀ i, (i < idx)%nat → entry v i = entry w i) →
  partial v idx k = partial w idx k.
Proof.
  intros Hk Hvw. induction k as [|k IH]; [done|].
  cbn. rewrite IH by lia. unfold term.
  rewrite (Hvw k), (Hvw (idx - 1 - k)%nat) by lia. done.
Qed.

(** The running sum, reduced at every round, is the reduced sum. *)
Lemma partial_sum v idx k :
  partial v idx k = sum_below (term v idx) k `mod` MODULO.
Proof.
  induction k as [|k IH]; [done|].
  cbn. rewrite IH. by rewrite Zplus_mod_idemp_l.
Qed.

(** ** One round of the inner loop *)

Lemma ll_mul_in_range a b :
  in_range a → in_range b → ll_mul a b = Ok (a * b).
Proof.
  unfold in_range, MODULO. intros Ha Hb. apply as_llong_Ok.
  unfold LLONG_MIN, LLONG_MAX. nia.
Qed.

Lemma accumulate_Ok c idx k :
  Forall in_range c → 0 ≤ k < idx → idx < Z.of_nat (length c) →
  idx ≤ INT_MAX →
  accumulate c idx k =
  Ok (<[Z.to_nat idx :=
          (entry c (Z.to_nat idx) + term c (Z.to_nat idx) (Z.to_nat k))
          `mod` MODULO]> c).
Proof.
  intros Hc Hk Hlen Hmax. unfold INT_MAX in Hmax.
  assert (Hcur := entry_in_range c (Z.to_nat idx) Hc ltac:(lia)).
  assert (Ha := entry_in_range c (Z.to_nat k) Hc ltac:(lia)).
  assert (Hb := entry_in_range c (Z.to_nat (idx - k - 1)) Hc ltac:(lia)).
  assert (Ht := term_in_range c (Z.to_nat idx) (Z.to_nat k)).
  unfold accumulate.
  rewrite (vec_read_Ok c idx (entry c (Z.to_nat idx)))
    by (try apply lookup_entry; lia).
  rewrite bind_Ok.
  rewrite (vec_read_Ok c k (entry c (Z.to_nat k)))
    by (try apply lookup_entry; lia).
  rewrite bind_Ok.
  unfold int_sub. rewrite (as_int_Ok (idx - k)) by (unfold INT_MIN, INT_MAX; lia).
  rewrite bind_Ok. rewrite (as_int_Ok (idx - k - 1)) by (unfold INT_MIN, INT_MAX; lia).
  rewrite bind_Ok.
  rewrite (vec_read_Ok c (idx - k - 1) (entry c (Z.to_nat (idx - k - 1))))
    by (try apply lookup_entry; lia).
  rewrite bind_Ok, ll_mul_in_range, bind_Ok by done.
  rewrite ll_rem_MODULO, bind_Ok by (unfold in_range in *; nia).
  replace (Z.to_nat (idx - k - 1)) with (Z.to_nat idx - 1 - Z.to_nat k)%nat by lia.
  fold (term c (Z.to_nat idx) (Z.to_nat k)).
  unfold ll_add. rewrite as_llong_Ok, bind_Ok
    by (unfold in_range, MODULO, LLONG_MIN, LLONG_MAX in *; lia).
  rewrite ll_rem_MODULO, bind_Ok by (unfold in_range in *; lia).
  apply vec_write_Ok; lia.
Qed.

(** ** The loop invariant *)

Lemma entry_insert_ne (c : list Z) i j x :
  i ≠ j → entry (<[i := x]> c) j = entry c j.
Proof. intros H. unfold entry. by rewrite list_lookup_insert_ne. Qed.

Lemma partial_insert_ge (c : list Z) i j k x :
  (k ≤ j ≤ i)%nat → partial (<[i := x]> c) j k = partial c j k.
Proof.
  intros H. apply partial_ext; [lia|].
  intros n Hn. apply entry_insert_ne. lia.
Qed.

Lemma table_inv_init L :
  table_inv L (<[0%nat := 1]> (replicate (Datatypes.S L) 0)) 1 0.
Proof.
  split.
  - by rewrite length_insert, length_replicate.
  - done.
  - lia.
  - intros H. rewrite list_lookup_insert_ne by lia.
    apply lookup_replicate_2. lia.
  - intros j Hj. rewrite list_lookup_insert_ne by lia.
    apply lookup_replicate_2. lia.
  - apply Forall_insert; [|by compute].
    apply Forall_replicate. by compute.
Qed.

Lemma table_inv_round L c i k :
  table_inv L c i k → (k < i ≤ L)%nat →
  table_inv L (<[i := (entry c i + term c i k) `mod` MODULO]> c) i
            (Datatypes.S k).
Proof.
  intros [Hlen Hbase Hdone Hcur Hrest Hrange] Hk. split.
  - by rewrite length_insert.
  - rewrite list_lookup_insert_ne by lia. done.
  - intros j Hj. rewrite list_lookup_insert_ne by lia.
    rewrite partial_insert_ge by lia. by apply Hdone.
  - intros _. rewrite list_lookup_insert_eq by lia. f_equal.
    cbn [partial]. rewrite partial_insert_ge by lia.
    rewrite (entry_lookup c i _ (Hcur ltac:(lia))).
    unfold term. rewrite !entry_insert_ne by lia. done.
  - intros j Hj. rewrite list_lookup_insert_ne by lia. by apply Hrest.
  - apply Forall_insert; [done|]. apply Z.mod_pos_bound. reflexivity.
Qed.

Lemma table_inv_next L c i :
  table_inv L c i i → (1 ≤ i ≤ L)%nat → table_inv L c (Datatypes.S i) 0.
Proof.
  intros [Hlen Hbase Hdone Hcur Hrest Hrange] Hi. split; try done.
  - intros j Hj. destruct (decide (j = i)) as [->|]; [apply Hcur|apply Hdone]; lia.
  - intros H. cbn. apply Hrest. lia.
  - intros j Hj. apply Hrest. lia.
Qed.

(** ** The number of transitions *)

Lemma outer_rest_nonneg idx rounds : 0 ≤ idx → 0 ≤ outer_rest idx rounds.
Proof.
  revert idx. induction rounds as [|r IH]; intros idx H; cbn; [done|].
  specialize (IH (idx + 1)). lia.
Qed.

Lemma outer_rest_closed idx rounds :
  2 * outer_rest idx rounds
  = Z.of_nat rounds * (2 * idx + Z.of_nat rounds + 3).
Proof.
  revert idx. induction rounds as [|r IH]; intros idx; [done|].
  cbn [outer_rest]. rewrite Nat2Z.inj_succ.
  specialize (IH (idx + 1)). lia.
Qed.

(** ** [computeCatalan] on a limit whose successor is an [int] *)

Section ComputeCatalan.
Variable limit : Z.
Hypothesis limit_range : 0 ≤ limit < INT_MAX.

Local Abbreviation L := (Z.to_nat limit).

Lemma variant_nonneg c : config_inv limit c → 0 ≤ variant limit c.
Proof.
  destruct c as [c idx|c idx k]; cbn.
  - intros [? _]. apply outer_rest_nonneg. lia.
  - intros (? & ? & _).
    pose proof (outer_rest_nonneg (idx + 1) (Z.to_nat (limit - idx))). lia.
Qed.

Lemma computeCatalan_progress c :
  config_inv limit c →
  ∃ r, computeCatalan_step limit c = Ok r ∧
    match r with
    | inl c' => config_inv limit c' ∧ variant limit c = 1 + variant limit c'
    | inr v => complete L v ∧ variant limit c = 0
    end.
Proof.
  unfold INT_MAX in limit_range.
  destruct c as [c idx|c idx k]; cbn [config_inv computeCatalan_step].
  - intros [Hidx Hinv]. destruct (Z.leb_spec idx limit).
    + exists (inl (Inner c idx 0)). split; [done|]. cbn. split; [by auto with lia|].
      replace (Z.to_nat (limit + 1 - idx))
        with (Datatypes.S (Z.to_nat (limit - idx))) by lia.
      cbn. lia.
    + exists (inr c). split; [done|].
      replace idx with (limit + 1) in * by lia. split.
      * unfold complete. by replace (Datatypes.S L) with (Z.to_nat (limit + 1)) by lia.
      * cbn. replace (limit + 1 - (limit + 1)) with 0 by lia. done.
  - intros (Hidx & Hk & Hinv). destruct (Z.ltb_spec k idx).
    + rewrite accumulate_Ok;
        [|apply Hinv|lia|rewrite (inv_length _ _ _ _ Hinv); lia|unfold INT_MAX; lia].
      rewrite bind_Ok. unfold int_add.
      rewrite as_int_Ok by (unfold INT_MIN, INT_MAX; lia). rewrite bind_Ok.
      eexists. split; [done|]. cbn. split; [|lia].
      split; [lia|]. split; [lia|].
      replace (Z.to_nat (k + 1)) with (Datatypes.S (Z.to_nat k)) by lia.
      apply table_inv_round; [done|lia].
    + unfold int_add. rewrite as_int_Ok by (unfold INT_MIN, INT_MAX; lia).
      rewrite bind_Ok. eexists. split; [done|]. cbn.
      replace k with idx in * by lia. split.
      * split; [lia|].
        replace (Z.to_nat (idx + 1)) with (Datatypes.S (Z.to_nat idx)) by lia.
        apply table_inv_next; [done|lia].
      * replace (limit + 1 - (idx + 1)) with (limit - idx) by lia. lia.
Qed.

Lemma computeCatalan_init_Ok :
  computeCatalan_init limit
  = Ok (Outer (<[0%nat := 1]> (replicate (Datatypes.S L) 0)) 1).
Proof.
  unfold INT_MAX in limit_range.
  unfold computeCatalan_init, int_add.
  rewrite as_int_Ok by (unfold INT_MIN, INT_MAX; lia). rewrite bind_Ok.
  unfold vector_fill. rewrite to_size_t_small by lia.
  change max_size with (2 ^ 60 - 1).
  destruct (Z.ltb_spec (2 ^ 60 - 1) (limit + 1)); [lia|].
  rewrite bind_Ok.
  replace (Z.to_nat (limit + 1)) with (Datatypes.S L) by lia.
  rewrite vec_write_Ok; [done|lia|].
  rewrite length_replicate. lia.
Qed.

Lemma config_inv_init :
  config_inv limit (Outer (<[0%nat := 1]> (replicate (Datatypes.S L) 0)) 1).
Proof. cbn. split; [lia|]. apply table_inv_init. Qed.

(** Every state on the way satisfies the invariant, and so does the
    table at the return. *)
Lemma computeCatalan_steps n :
  ∃ r, (c ← computeCatalan_init limit; steps (computeCatalan_step limit) n c)
       = Ok r ∧
    match r with inl c => config_inv limit c | inr v => complete L v end.
Proof.
  rewrite computeCatalan_init_Ok, bind_Ok.
  apply (steps_safe _ (config_inv limit) (complete L) (variant limit)
         computeCatalan_progress).
  apply config_inv_init.
Qed.

(** The call returns the completed table, after exactly
    [outer_rest 1 L + 1] transitions. *)
Lemma computeCatalan_run :
  ∃ v, complete L v ∧
    ∀ fuel, computeCatalan fuel limit =
            if decide (outer_rest 1 L < Z.of_nat fuel) then Ok v
            else OutOfFuel.
Proof.
  destruct (run_variant _ (config_inv limit) (complete L) (variant limit)
              variant_nonneg computeCatalan_progress _ config_inv_init)
    as (v & Hv & Hrun).
  exists v. split; [done|]. intros fuel.
  unfold computeCatalan. rewrite computeCatalan_init_Ok, bind_Ok, Hrun.
  cbn [variant]. by replace (limit + 1 - 1) with limit by lia.
Qed.
End ComputeCatalan.

(** ** Calls of [computeCatalan] *)

Lemma computeCatalan_more_fuel n m limit :
  computeCatalan n limit ≠ OutOfFuel → (n ≤ m)%nat →
  computeCatalan m limit = computeCatalan n limit.
Proof.
  unfold computeCatalan.
  destruct (computeCatalan_init limit) as [c|u|e|]; cbn; try done.
  apply run_more_fuel.
Qed.

Lemma returns_intro n limit v : computeCatalan n limit = Ok v → returns limit v.
Proof.
  intros H. exists n. intros fuel Hle.
  rewrite <- H. apply computeCatalan_more_fuel; [congruence|done].
Qed.

(** [limit + 1] is not an [int]: the call is undefined before the table
    exists. *)
Lemma computeCatalan_overflow fuel limit :
  INT_MAX ≤ limit → computeCatalan fuel limit = Undefined IntOverflow.
Proof.
  intros H. unfold computeCatalan, computeCatalan_init, int_add, as_int.
  destruct (Z.leb_spec (limit + 1) INT_MAX); [lia|].
  by rewrite andb_false_r.
Qed.

Lemma computeCatalan_returns limit :
  0 ≤ limit < INT_MAX →
  ∃ v, returns limit v ∧ complete (Z.to_nat limit) v.
Proof.
  intros H. destruct (computeCatalan_run limit H) as (v & Hv & Hrun).
  exists v. split; [|done].
  exists (Z.to_nat (outer_rest 1 (Z.to_nat limit) + 1)). intros fuel Hfuel.
  rewrite Hrun. destruct (decide _); [done|lia].
Qed.

Lemma computeCatalan_Ok_complete fuel limit v :
  0 ≤ limit → computeCatalan fuel limit = Ok v →
  limit < INT_MAX ∧ complete (Z.to_nat limit) v.
Proof.
  intros H0 Hv. destruct (Z.lt_ge_cases limit INT_MAX) as [Hlt|Hge].
  - split; [done|].
    destruct (computeCatalan_run limit (conj H0 Hlt)) as (w & Hw & Hrun).
    rewrite Hrun in Hv. destruct (decide _); congruence.
  - rewrite computeCatalan_overflow in Hv by done. discriminate.
Qed.

(** Two completed tables agree wherever both are defined. *)
Lemma complete_agree L L' v v' i :
  complete L v → complete L' v' → (i ≤ L)%nat → (i ≤ L')%nat →
  v !! i = v' !! i.
Proof.
  intros Hv Hv'. induction (lt_wf i) as [i _ IH]. intros Hi Hi'.
  destruct (decide (i = 0%nat)) as [->|Hpos].
  - by rewrite (inv_base _ _ _ _ Hv), (inv_base _ _ _ _ Hv').
  - rewrite (inv_done _ _ _ _ Hv i), (inv_done _ _ _ _ Hv' i) by lia.
    f_equal. apply partial_ext; [done|].
    intros j Hj. unfold entry. by rewrite (IH j) by lia.
Qed.

(** * The specification's claims *)

(** C1 (as amended): for every limit with 0 <= limit < 2147483647,
    computeCatalan(limit) returns a sequence of length limit + 1 whose
    element 0 is 1 and whose element idx, for each idx from 1 to limit, is
    the sum over k in [0, idx-1] of (result[k] * result[idx-1-k]) mod
    1000000007, reduced mod 1000000007; for limit = 0 it is [1]. *)
Theorem computeCatalan_recurrence limit :
  0 ≤ limit < INT_MAX →
  ∃ v, returns limit v ∧
       length v = Z.to_nat (limit + 1) ∧
       v !! 0%nat = Some 1 ∧
       (∀ idx, 1 ≤ idx ≤ limit →
          v !! Z.to_nat idx =
          Some (sum_below
                  (λ k, (entry v k * entry v (Z.to_nat idx - 1 - k))
                        `mod` 1000000007)
                  (Z.to_nat idx) `mod` 1000000007)) ∧
       (limit = 0 → v = [1]).
Proof.
  intros H. destruct (computeCatalan_returns limit H) as (v & Hret & Hv).
  exists v. split; [done|].
  pose proof (inv_length _ _ _ _ Hv) as Hlen. split; [lia|].
  split; [apply Hv|]. split.
  - intros idx Hidx. rewrite (inv_done _ _ _ _ Hv) by lia.
    by rewrite partial_sum.
  - intros ->. destruct v as [|x [|y v]]; try discriminate Hlen.
    pose proof (inv_base _ _ _ _ Hv) as Hb. cbn in Hb. congruence.
Qed.

Lemma computeCatalan_recurrence_witness :
  0 ≤ 4 < INT_MAX ∧
  ∃ v, returns 4 v ∧
       length v = Z.to_nat (4 + 1) ∧
       v !! 0%nat = Some 1 ∧
       (∀ idx, 1 ≤ idx ≤ 4 →
          v !! Z.to_nat idx =
          Some (sum_below
                  (λ k, (entry v k * entry v (Z.to_nat idx - 1 - k))
                        `mod` 1000000007)
                  (Z.to_nat idx) `mod` 1000000007)) ∧
       (4 = 0 → v = [1]).
Proof.
  assert (0 ≤ 4 < INT_MAX) as H by (unfold INT_MAX; lia).
  split; [exact H | exact (computeCatalan_recurrence 4 H)].
Defined.

(** C1 fails at limit = 2147483647, an [int] that is >= 0: [limit + 1]
    overflows, the behaviour is undefined and no sequence is returned. *)
Lemma computeCatalan_recurrence_fails_at_INT_MAX :
  (∀ fuel, computeCatalan fuel 2147483647 = Undefined IntOverflow) ∧
  ¬ ∃ v, returns 2147483647 v.
Proof.
  assert (∀ fuel, computeCatalan fuel 2147483647 = Undefined IntOverflow) as H.
  { intros fuel. apply computeCatalan_overflow. by compute. }
  split; [done|]. intros (v & N & Hv).
  specialize (Hv N (Nat.le_refl _)). rewrite H in Hv. discriminate.
Qed.

(** C2: for every limit >= 0, every element of the sequence returned by
    computeCatalan(limit) is non-negative and below 1000000007; the call
    does return such a sequence whenever [limit + 1] is an [int]. *)
Theorem computeCatalan_in_range limit :
  0 ≤ limit →
  (∀ fuel v, computeCatalan fuel limit = Ok v →
             Forall (λ x, 0 ≤ x < 1000000007) v) ∧
  (limit < INT_MAX →
   ∃ v, returns limit v ∧ Forall (λ x, 0 ≤ x < 1000000007) v).
Proof.
  intros H0. split.
  - intros fuel v Hv.
    destruct (computeCatalan_Ok_complete fuel limit v H0 Hv) as [_ Hc].
    apply Hc.
  - intros Hlt.
    destruct (computeCatalan_returns limit (conj H0 Hlt)) as (v & Hret & Hc).
    exists v. split; [done|apply Hc].
Qed.

Lemma computeCatalan_in_range_witness :
  0 ≤ 4 ∧ computeCatalan 19 4 = Ok [1; 1; 2; 5; 14] ∧
  Forall (λ x, 0 ≤ x < 1000000007) [1; 1; 2; 5; 14].
Proof.
  assert (0 ≤ 4) as H0 by lia.
  assert (computeCatalan 19 4 = Ok [1; 1; 2; 5; 14]) as Hv by reflexivity.
  split; [exact H0|]. split; [exact Hv|].
  exact (proj1 (computeCatalan_in_range 4 H0) 19%nat _ Hv).
Defined.

(** C4: the literal prefixes: computeCatalan(0) = [1], computeCatalan(1) =
    [1, 1], computeCatalan(2) = [1, 1, 2], computeCatalan(3) = [1, 1, 2, 5]
    and computeCatalan(4) = [1, 1, 2, 5, 14]. *)
Theorem computeCatalan_literals :
  returns 0 [1] ∧ returns 1 [1; 1] ∧ returns 2 [1; 1; 2] ∧
  returns 3 [1; 1; 2; 5] ∧ returns 4 [1; 1; 2; 5; 14].
Proof.
  repeat split.
  - by apply (returns_intro 1).
  - by apply (returns_intro 4).
  - by apply (returns_intro 8).
  - by apply (returns_intro 13).
  - by apply (returns_intro 19).
Qed.

(** C5: prefix stability: for all n >= 0 and m >= n, the sequence returned
    by computeCatalan(n) is the one returned by computeCatalan(m) cut after
    index n; both calls return whenever [m + 1] is an [int]. *)
Theorem computeCatalan_prefix_stable n m :
  0 ≤ n ≤ m →
  (∀ fn fm vn vm,
     computeCatalan fn n = Ok vn → computeCatalan fm m = Ok vm →
     vn = take (Z.to_nat (n + 1)) vm) ∧
  (m < INT_MAX →
   ∃ vn vm, returns n vn ∧ returns m vm ∧ vn = take (Z.to_nat (n + 1)) vm).
Proof.
  intros Hnm.
  assert (∀ fn fm vn vm,
     computeCatalan fn n = Ok vn → computeCatalan fm m = Ok vm →
     vn = take (Z.to_nat (n + 1)) vm) as Hcut.
  { intros fn fm vn vm Hn Hm.
    destruct (computeCatalan_Ok_complete fn n vn) as [_ Hcn]; [lia|done|].
    destruct (computeCatalan_Ok_complete fm m vm) as [_ Hcm]; [lia|done|].
    pose proof (inv_length _ _ _ _ Hcn) as Hln.
    pose proof (inv_length _ _ _ _ Hcm) as Hlm.
    apply list_eq. intros i.
    destruct (decide (i < Z.to_nat (n + 1))%nat) as [Hi|Hi].
    - rewrite lookup_take_lt by done.
      apply (complete_agree _ _ _ _ i Hcn Hcm); lia.
    - rewrite lookup_take_ge by lia. apply lookup_ge_None. lia. }
  split; [exact Hcut|]. intros Hm.
  destruct (computeCatalan_returns n) as (vn & Hrn & _); [lia|].
  destruct (computeCatalan_returns m) as (vm & Hrm & _); [lia|].
  exists vn, vm. split; [done|]. split; [done|].
  destruct Hrn as [Nn Hrn]. destruct Hrm as [Nm Hrm].
  apply (Hcut Nn Nm); [apply Hrn|apply Hrm]; done.
Qed.

Lemma computeCatalan_prefix_stable_witness :
  0 ≤ 2 ≤ 4 ∧
  computeCatalan 8 2 = Ok [1; 1; 2] ∧
  computeCatalan 19 4 = Ok [1; 1; 2; 5; 14] ∧
  [1; 1; 2] = take (Z.to_nat (2 + 1)) [1; 1; 2; 5; 14].
Proof.
  assert (0 ≤ 2 ≤ 4) as H by lia.
  assert (computeCatalan 8 2 = Ok [1; 1; 2]) as H2 by reflexivity.
  assert (computeCatalan 19 4 = Ok [1; 1; 2; 5; 14]) as H4 by reflexivity.
  split; [exact H|]. split; [exact H2|]. split; [exact H4|].
  exact (proj1 (computeCatalan_prefix_stable 2 4 H) 8%nat 19%nat _ _ H2 H4).
Defined.

(** ** The states of a run *)

Lemma reaches_inv limit n c :
  0 ≤ limit → reaches limit n c → limit < INT_MAX ∧ config_inv limit c.
Proof.
  unfold reaches. intros H0 Hc.
  destruct (Z.lt_ge_cases limit INT_MAX) as [Hlt|Hge].
  - split; [done|].
    destruct (computeCatalan_steps limit (conj H0 Hlt) n) as (r & Hr & Hinv).
    rewrite Hr in Hc. by simplify_eq.
  - exfalso. revert Hc. unfold computeCatalan_init, int_add, as_int.
    destruct (Z.leb_spec (limit + 1) INT_MAX); [lia|].
    by rewrite andb_false_r.
Qed.

Lemma config_inv_table limit c :
  config_inv limit c →
  length (table_of c) = Z.to_nat (limit + 1) ∧ Forall in_range (table_of c).
Proof.
  destruct c as [t idx|t idx k]; cbn.
  - intros [? Hinv]. split; [|apply Hinv].
    rewrite (inv_length _ _ _ _ Hinv). lia.
  - intros (? & ? & Hinv). split; [|apply Hinv].
    rewrite (inv_length _ _ _ _ Hinv). lia.
Qed.

(** With enough fuel or not, a call on a limit >= 0 either returns, is
    out of fuel, or fails on [limit + 1]. *)
Lemma computeCatalan_outcomes fuel limit :
  0 ≤ limit →
  is_Ok (computeCatalan fuel limit) ∨
  computeCatalan fuel limit = OutOfFuel ∨
  computeCatalan fuel limit = Undefined IntOverflow.
Proof.
  intros H0. destruct (Z.lt_ge_cases limit INT_MAX) as [Hlt|Hge].
  - destruct (computeCatalan_run limit (conj H0 Hlt)) as (v & _ & Hrun).
    rewrite Hrun. destruct (decide _); [left; by exists v|by right; left].
  - right; right. by apply computeCatalan_overflow.
Qed.

(** C3: the products are taken in [long long], whose 63 value bits are at
    least twice the 30 bits of the modulus, so the product of two values
    below 1000000007 does not overflow; in every state of a run on a limit
    >= 0 the stored values are in [0, 1000000007), and a round of the inner
    loop stores the old value plus the reduced product, reduced again; no
    run fails on a [long long] overflow. *)
Theorem products_do_not_overflow limit :
  0 ≤ limit →
  2 * (Z.log2 MODULO + 1) ≤ Z.log2 LLONG_MAX + 1 ∧
  (∀ a b, 0 ≤ a < MODULO → 0 ≤ b < MODULO → ll_mul a b = Ok (a * b)) ∧
  (∀ fuel, computeCatalan fuel limit ≠ Undefined LongLongOverflow) ∧
  (∀ n c, reaches limit n c →
     Forall (λ x, 0 ≤ x < MODULO) (table_of c) ∧
     match c with
     | Outer _ _ => True
     | Inner catalan idx k =>
         k < idx →
         accumulate catalan idx k =
         Ok (<[Z.to_nat idx :=
                 (entry catalan (Z.to_nat idx)
                  + (entry catalan (Z.to_nat k)
                     * entry catalan (Z.to_nat (idx - k - 1))) `mod` MODULO)
                 `mod` MODULO]> catalan)
     end).
Proof.
  intros H0. split; [by compute|]. split; [apply ll_mul_in_range|]. split.
  - intros fuel.
    destruct (computeCatalan_outcomes fuel limit H0) as [[v ->]|[->| ->]]; done.
  - intros n c Hc. destruct (reaches_inv limit n c H0 Hc) as [Hlt Hinv].
    split; [apply (config_inv_table limit c Hinv)|].
    destruct c as [t idx|t idx k]; [done|]. intros Hk.
    destruct Hinv as (Hidx & Hk' & Hinv).
    rewrite accumulate_Ok;
      [|apply Hinv|lia|rewrite (inv_length _ _ _ _ Hinv); lia|lia].
    unfold term.
    by replace (Z.to_nat idx - 1 - Z.to_nat k)%nat
      with (Z.to_nat (idx - k - 1)) by lia.
Qed.

Lemma products_do_not_overflow_witness :
  0 ≤ 4 ∧
  ll_mul 1000000006 1000000006 = Ok (1000000006 * 1000000006) ∧
  reaches 4 9 (Inner [1; 1; 2; 2; 0] 3 1) ∧
  Forall (λ x, 0 ≤ x < MODULO) [1; 1; 2; 2; 0] ∧
  accumulate [1; 1; 2; 2; 0] 3 1 = Ok [1; 1; 2; 3; 0].
Proof.
  assert (0 ≤ 4) as H0 by lia.
  assert (reaches 4 9 (Inner [1; 1; 2; 2; 0] 3 1)) as Hc by reflexivity.
  destruct (products_do_not_overflow 4 H0) as (_ & Hmul & _ & Hst).
  split; [exact H0|].
  split; [apply Hmul; unfold MODULO; lia|].
  split; [exact Hc|].
  destruct (Hst _ _ Hc) as [Hrange Hacc].
  split; [exact Hrange|]. apply Hacc. lia.
Defined.

(** C10: every subscript of a run on a limit >= 0 is inside the table of
    limit + 1 elements: the write at 0 after the construction, and in each
    round of the inner loop the reads at idx, k and idx - k - 1 and the
    write at idx, with k and idx - k - 1 in [0, idx - 1] and idx in
    [1, limit]; no run fails on a subscript. *)
Theorem subscripts_within_bounds limit :
  0 ≤ limit →
  (∀ fuel, computeCatalan fuel limit ≠ Undefined OutOfRange) ∧
  (∀ n t, int_add limit 1 = Ok n → vector_fill n 0 = Ok t →
     length t = Z.to_nat (limit + 1) ∧ is_Ok (vec_write t 0 1)) ∧
  (∀ n c, reaches limit n c →
     length (table_of c) = Z.to_nat (limit + 1) ∧
     match c with
     | Outer _ _ => True
     | Inner catalan idx k =>
         k < idx →
         1 ≤ idx ≤ limit ∧ 0 ≤ k ≤ idx - 1 ∧ 0 ≤ idx - k - 1 ≤ idx - 1 ∧
         is_Ok (vec_read catalan idx) ∧ is_Ok (vec_read catalan k) ∧
         is_Ok (vec_read catalan (idx - k - 1)) ∧
         ∀ x, is_Ok (vec_write catalan idx x)
     end).
Proof.
  intros H0. split; [|split].
  - intros fuel.
    destruct (computeCatalan_outcomes fuel limit H0) as [[v ->]|[->| ->]]; done.
  - intros n t. unfold int_add, as_int, vector_fill.
    destruct (Z.leb_spec (limit + 1) INT_MAX) as [Hle|];
      [|by rewrite andb_false_r].
    destruct (Z.leb_spec INT_MIN (limit + 1)); cbn; [|done].
    unfold INT_MAX in Hle. intros [= <-].
    rewrite to_size_t_small by lia.
    destruct (max_size <? limit + 1); [done|]. intros [= <-].
    rewrite length_replicate. split; [done|].
    eexists. apply vec_write_Ok; [lia|]. rewrite length_replicate. lia.
  - intros n c Hc. destruct (reaches_inv limit n c H0 Hc) as [Hlt Hinv].
    destruct (config_inv_table limit c Hinv) as [Hlen _]. split; [done|].
    destruct c as [t idx|t idx k]; [done|]. intros Hk.
    destruct Hinv as (Hidx & Hk' & Hinv). cbn in Hlen.
    unfold INT_MAX in Hlt.
    assert (∀ i, 0 ≤ i ≤ limit → is_Ok (vec_read t i)) as Hread.
    { intros i Hi. eexists. apply vec_read_Ok; [lia|].
      apply lookup_entry. lia. }
    repeat (split; [first [lia | apply Hread; lia]|]).
    intros x. eexists. apply vec_write_Ok; lia.
Qed.

Lemma subscripts_within_bounds_witness :
  0 ≤ 4 ∧
  reaches 4 9 (Inner [1; 1; 2; 2; 0] 3 1) ∧
  length [1; 1; 2; 2; 0] = Z.to_nat (4 + 1) ∧
  is_Ok (vec_read [1; 1; 2; 2; 0] (3 - 1 - 1)).
Proof.
  assert (0 ≤ 4) as H0 by lia.
  assert (reaches 4 9 (Inner [1; 1; 2; 2; 0] 3 1)) as Hc by reflexivity.
  destruct (subscripts_within_bounds 4 H0) as (_ & _ & Hst).
  split; [exact H0|]. split; [exact Hc|].
  destruct (Hst _ _ Hc) as [Hlen Hsub].
  split; [exact Hlen|]. apply Hsub. lia.
Defined.

(** ** Limits below zero *)

(** A negative size converts to a [size_type] above [max_size()]. *)
Lemma computeCatalan_length_error fuel limit :
  INT_MIN - 1 ≤ limit ≤ -2 → computeCatalan fuel limit = Thrown length_error.
Proof.
  unfold INT_MIN. intros H.
  unfold computeCatalan, computeCatalan_init, int_add.
  rewrite as_int_Ok by (unfold INT_MIN, INT_MAX; lia). rewrite bind_Ok.
  unfold vector_fill, to_size_t.
  rewrite <- (Z_mod_plus_full (limit + 1) 1 (2 ^ 64)).
  rewrite Z.mod_small by lia. change max_size with (2 ^ 60 - 1).
  destruct (Z.ltb_spec (2 ^ 60 - 1) (limit + 1 + 1 * 2 ^ 64)); [done|lia].
Qed.

Lemma computeCatalan_underflow fuel limit :
  limit < INT_MIN - 1 → computeCatalan fuel limit = Undefined IntOverflow.
Proof.
  intros H. unfold computeCatalan, computeCatalan_init, int_add, as_int.
  destruct (Z.leb_spec INT_MIN (limit + 1)); [lia|done].
Qed.

(** C7 (as amended): computeCatalan does not validate its argument and
    never signals an invalid argument.  On limit = -1 the table is empty
    and the write at index 0 is undefined behaviour; on a limit from
    -2147483648 to -2 the size limit + 1 converts to an unsigned value
    above max_size() and the vector constructor throws length_error.  On a
    limit with 0 <= limit < 2147483647 the call returns: there is no
    failure. *)
Theorem computeCatalan_negative_limit :
  (∀ fuel, computeCatalan fuel (-1) = Undefined OutOfRange) ∧
  (∀ fuel limit, INT_MIN ≤ limit ≤ -2 →
     computeCatalan fuel limit = Thrown length_error) ∧
  (∀ fuel limit, computeCatalan fuel limit ≠ Thrown invalid_argument) ∧
  (∀ limit, 0 ≤ limit < INT_MAX → ∃ v, returns limit v).
Proof.
  assert (∀ fuel, computeCatalan fuel (-1) = Undefined OutOfRange) as Hm1
    by reflexivity.
  split; [exact Hm1|]. split; [|split].
  - intros fuel limit H. apply computeCatalan_length_error. lia.
  - intros fuel limit.
    destruct (Z.lt_ge_cases limit (INT_MIN - 1)) as [|Hlow];
      [by rewrite computeCatalan_underflow|].
    destruct (Z.le_gt_cases limit (-2)) as [|Hm2];
      [by rewrite computeCatalan_length_error|].
    destruct (decide (limit = -1)) as [->|]; [by rewrite Hm1|].
    destruct (computeCatalan_outcomes fuel limit) as [[v ->]|[->| ->]];
      [lia|done..].
  - intros limit H. destruct (computeCatalan_returns limit H) as (v & Hv & _).
    by exists v.
Qed.

Lemma computeCatalan_negative_limit_witness :
  INT_MIN ≤ -2147483648 ≤ -2 ∧
  computeCatalan 0 (-2147483648) = Thrown length_error ∧
  0 ≤ 3 < INT_MAX ∧
  ∃ v, returns 3 v.
Proof.
  assert (INT_MIN ≤ -2147483648 ≤ -2) as Hneg by (unfold INT_MIN; lia).
  assert (0 ≤ 3 < INT_MAX) as Hpos by (unfold INT_MAX; lia).
  destruct computeCatalan_negative_limit as (_ & Hthrow & _ & Hret).
  split; [exact Hneg|]. split; [exact (Hthrow 0%nat _ Hneg)|].
  split; [exact Hpos | exact (Hret 3 Hpos)].
Defined.

(** C7 fails at limit = -1: the call is undefined behaviour (a write
    outside the empty table), not an invalid-argument failure; and at
    limit = -2 the failure is a length_error. *)
Lemma computeCatalan_minus_one_undefined :
  computeCatalan 0 (-1) = Undefined OutOfRange ∧
  computeCatalan 0 (-1) ≠ Thrown invalid_argument ∧
  computeCatalan 0 (-2) = Thrown length_error.
Proof. split; [reflexivity|]. split; [discriminate|reflexivity]. Qed.

(** ** Fuel does not matter *)



(** ** Termination *)

Lemma outer_rest_from_one limit :
  0 ≤ limit → outer_rest 1 (Z.to_nat limit) = (limit * (limit + 5)) `div` 2.
Proof.
  intros H. pose proof (outer_rest_closed 1 (Z.to_nat limit)) as Hc.
  rewrite Z2Nat.id in Hc by done.
  apply Z.div_unique_exact; lia.
Qed.

(** C9 (as amended): for every limit with 0 <= limit < 2147483647 the
    computation of computeCatalan(limit) terminates: it returns after
    exactly limit * (limit + 5) / 2 + 1 transitions, one for each test of
    a loop condition (limit + 1 tests of the outer loop and idx + 1 tests
    of the inner loop in round idx), and not before. *)
Theorem computeCatalan_terminates limit :
  0 ≤ limit < INT_MAX →
  ∃ v, ∀ fuel,
    computeCatalan fuel limit =
    if decide ((limit * (limit + 5)) `div` 2 + 1 ≤ Z.of_nat fuel) then Ok v
    else OutOfFuel.
Proof.
  intros H. destruct (computeCatalan_run limit H) as (v & _ & Hrun).
  exists v. intros fuel. rewrite Hrun, outer_rest_from_one by lia.
  destruct (decide _), (decide _); (done || lia).
Qed.

Lemma computeCatalan_terminates_witness :
  0 ≤ 4 < INT_MAX ∧
  ∃ v, ∀ fuel,
    computeCatalan fuel 4 =
    if decide ((4 * (4 + 5)) `div` 2 + 1 ≤ Z.of_nat fuel) then Ok v
    else OutOfFuel.
Proof.
  assert (0 ≤ 4 < INT_MAX) as H by (unfold INT_MAX; lia).
  split; [exact H | exact (computeCatalan_terminates 4 H)].
Defined.

(** C9 fails at limit = 2147483647: no amount of fuel makes the call
    return, it stops at the overflow of [limit + 1]. *)
Lemma computeCatalan_never_returns_at_INT_MAX :
  ¬ ∃ fuel v, computeCatalan fuel 2147483647 = Ok v.
Proof.
  intros (fuel & v & Hv).
  rewrite computeCatalan_overflow in Hv by (by compute). discriminate.
Qed.

(** ** [main] *)

Lemma main_more_fuel n m :
  main n ≠ OutOfFuel → (n ≤ m)%nat → main m = main n.
Proof.
  unfold main. intros Hn Hle.
  rewrite (computeCatalan_more_fuel n m 100); [|by destruct (computeCatalan n 100)|done].
  destruct (computeCatalan n 100) as [result|u|e|]; cbn in *; try done.
  rewrite (run_more_fuel (print_step result 100) n m);
    [done|by destruct (run (print_step result 100) n _)|done].
Qed.

(** C6: run with no arguments, the program computes computeCatalan(100)
    and writes exactly one line: the values result[1] to result[100] (not
    result[0]) in base 10, each followed by one space, then the newline
    character (code 10); the line begins 1 2 5 14 42 132 429 1430 4862
    16796; the exit status is 0.  The table and the text are given in
    full. *)
Theorem main_output :
  ∃ result out,
    returns 100 result ∧
    result =
    [
      1; 1; 2; 5; 14; 42; 132; 429; 1430; 4862; 16796; 58786;
      208012; 742900; 2674440; 9694845; 35357670; 129644790;
      477638700; 767263183; 564120378; 466266852; 482563003;
      59611249; 904138301; 946367425; 352943583; 550429273;
      949904131; 209635674; 475387402; 937414464; 488309750;
      925890214; 459122512; 93302951; 141865378; 966114350;
      869670557; 998231628; 602941373; 468488140; 436489089;
      4616923; 884518775; 205311759; 837590216; 245662066;
      217873312; 765348450; 265470434; 185096680; 323205961;
      812467623; 961237645; 63389378; 931095477; 938406495;
      709042248; 165264749; 202180493; 143994823; 895598835;
      467182928; 887145589; 467932736; 337289196; 848807734;
      364899808; 628322100; 685542858; 185042843; 889345934;
      458247558; 316330417; 319295576; 44509913; 251538890;
      88317157; 171644840; 747939002; 619955577; 784403821;
      724443566; 881931175; 861543437; 697101768; 740877392;
      452888603; 48028493; 826309900; 773088937; 590866122;
      155536848; 391271379; 853131050; 988619170; 608234667;
      577894130; 676902861; 558488487
    ] ∧
    (∃ N, ∀ fuel, (N ≤ fuel)%nat →
       main fuel = Ok (out +:+ String "010"%char "", 0)) ∧
    out =
      "1 2 5 14 42 132 " +:+
      "429 1430 4862 16796 58786 208012 " +:+
      "742900 2674440 9694845 35357670 129644790 477638700 " +:+
      "767263183 564120378 466266852 482563003 59611249 904138301 " +:+
      "946367425 352943583 550429273 949904131 209635674 475387402 " +:+
      "937414464 488309750 925890214 459122512 93302951 141865378 " +:+
      "966114350 869670557 998231628 602941373 468488140 436489089 " +:+
      "4616923 884518775 205311759 837590216 245662066 217873312 " +:+
      "765348450 265470434 185096680 323205961 812467623 961237645 " +:+
      "63389378 931095477 938406495 709042248 165264749 202180493 " +:+
      "143994823 895598835 467182928 887145589 467932736 337289196 " +:+
      "848807734 364899808 628322100 685542858 185042843 889345934 " +:+
      "458247558 316330417 319295576 44509913 251538890 88317157 " +:+
      "171644840 747939002 619955577 784403821 724443566 881931175 " +:+
      "861543437 697101768 740877392 452888603 48028493 826309900 " +:+
      "773088937 590866122 155536848 391271379 853131050 988619170 " +:+
      "608234667 577894130 676902861 558488487 " ∧
    out = foldr (λ x rest, printed x +:+ rest) "" (drop 1 result) ∧
    length (drop 1 result) = 100%nat ∧
    (∃ rest, out = "1 2 5 14 42 132 429 1430 4862 16796 " +:+ rest) ∧
    Forall (λ c, c ≠ "010"%char) (String.list_ascii_of_string out).
Proof.
  eexists _, _. split.
  { apply (returns_intro (Z.to_nat 5251)). vm_compute. reflexivity. }
  split; [reflexivity|]. split.
  2: { split; [vm_compute; reflexivity|].
       split; [vm_compute; reflexivity|]. split; [reflexivity|].
       split; [eexists; vm_compute; reflexivity|].
       apply (bool_decide_unpack _). vm_compute. exact I. }
  exists (Z.to_nat 5251). intros fuel Hfuel.
  rewrite (main_more_fuel (Z.to_nat 5251) fuel); [|vm_compute; discriminate|done].
  vm_compute. reflexivity.
Qed.

(** * Further properties of the code *)

(** ** The table holds the Catalan numbers *)

Lemma sum_below_ext f g n :
  (∀ k, (k < n)%nat → f k = g k) → sum_below f n = sum_below g n.
Proof.
  intros H. induction n as [|n IH]; [done|].
  cbn. rewrite IH, (H n) by auto with lia. done.
Qed.

Lemma sum_below_mod f n :
  sum_below (λ k, f k `mod` MODULO) n `mod` MODULO
  = sum_below f n `mod` MODULO.
Proof.
  induction n as [|n IH]; [done|].
  cbn. rewrite Z.add_mod, IH, Z.mod_mod, <- Z.add_mod by done. done.
Qed.

Lemma sum_below_nonneg f n :
  (∀ k, (k < n)%nat → 0 ≤ f k) → 0 ≤ sum_below f n.
Proof.
  intros H. induction n as [|n IH]; [done|].
  cbn. pose proof (H n ltac:(lia)). pose proof (IH ltac:(auto with lia)). lia.
Qed.

Lemma catalan_numbers_length n :
  length (catalan_numbers n) = Datatypes.S n.
Proof.
  induction n as [|n IH]; [done|].
  cbn [catalan_numbers]. rewrite length_app, IH. cbn. lia.
Qed.

(** The numbers do not depend on how far the list goes. *)
Lemma catalan_numbers_entry n i :
  (i ≤ n)%nat → entry (catalan_numbers n) i = Catalan i.
Proof.
  induction n as [|n IH]; intros Hi.
  - by replace i with 0%nat by lia.
  - destruct (decide (i = Datatypes.S n)) as [->|]; [done|].
    rewrite <- IH by lia. cbn [catalan_numbers]. unfold entry.
    rewrite lookup_app_l; [done|]. rewrite catalan_numbers_length. lia.
Qed.

Lemma Catalan_0 : Catalan 0 = 1.
Proof. reflexivity. Qed.

Lemma Catalan_S n :
  Catalan (Datatypes.S n)
  = sum_below (λ k, Catalan k * Catalan (n - k)) (Datatypes.S n).
Proof.
  unfold Catalan at 1. cbn [catalan_numbers]. unfold entry at 1.
  rewrite lookup_app_r by (rewrite catalan_numbers_length; lia).
  rewrite catalan_numbers_length, Nat.sub_diag. cbn [lookup list_lookup default].
  apply sum_below_ext. intros k Hk.
  by rewrite !catalan_numbers_entry by lia.
Qed.

Lemma Catalan_nonneg n : 0 ≤ Catalan n.
Proof.
  induction (lt_wf n) as [n _ IH]. destruct n as [|n]; [done|].
  rewrite Catalan_S. apply sum_below_nonneg. intros k Hk.
  apply Z.mul_nonneg_nonneg; apply IH; lia.
Qed.

Lemma complete_Catalan L v i :
  complete L v → (i ≤ L)%nat → v !! i = Some (Catalan i `mod` MODULO).
Proof.
  intros Hv. induction (lt_wf i) as [i _ IH]. intros Hi.
  destruct i as [|n]; [apply Hv|].
  rewrite (inv_done _ _ _ _ Hv) by lia. f_equal.
  rewrite partial_sum, Catalan_S.
  rewrite <- (sum_below_mod (λ k, Catalan k * Catalan (n - k))). f_equal.
  apply sum_below_ext. intros k Hk. unfold term.
  rewrite (entry_lookup v k _ (IH k ltac:(lia) ltac:(lia))).
  replace (Datatypes.S n - 1 - k)%nat with (n - k)%nat by lia.
  rewrite (entry_lookup v (n - k) _ (IH (n - k)%nat ltac:(lia) ltac:(lia))).
  by rewrite <- Zmult_mod.
Qed.

(** X1: the element at index idx of the sequence that computeCatalan
    returns is the idx-th Catalan number, as the integer recurrence
    C_0 = 1, C_(n+1) = sum of C_k * C_(n-k) defines it, reduced modulo
    1000000007; it is the Catalan number itself when that is below the
    modulus. *)
Theorem computeCatalan_Catalan fuel limit v idx :
  0 ≤ limit → computeCatalan fuel limit = Ok v → (idx ≤ Z.to_nat limit)%nat →
  v !! idx = Some (Catalan idx `mod` MODULO) ∧
  (Catalan idx < MODULO → v !! idx = Some (Catalan idx)).
Proof.
  intros H0 Hv Hidx.
  destruct (computeCatalan_Ok_complete fuel limit v H0 Hv) as [_ Hc].
  pose proof (complete_Catalan _ _ idx Hc Hidx) as Hmod.
  split; [done|]. intros Hsmall. rewrite Hmod. f_equal.
  apply Z.mod_small. split; [apply Catalan_nonneg|done].
Qed.

Lemma computeCatalan_Catalan_witness :
  0 ≤ 4 ∧ computeCatalan 19 4 = Ok [1; 1; 2; 5; 14] ∧ (4 ≤ Z.to_nat 4)%nat ∧
  [1; 1; 2; 5; 14] !! 4%nat = Some (Catalan 4 `mod` MODULO) ∧
  (Catalan 4 < MODULO → [1; 1; 2; 5; 14] !! 4%nat = Some (Catalan 4)).
Proof.
  assert (0 ≤ 4) as H0 by lia.
  assert (computeCatalan 19 4 = Ok [1; 1; 2; 5; 14]) as Hv by reflexivity.
  assert (4 ≤ Z.to_nat 4)%nat as Hidx by (cbn; lia).
  split; [exact H0|]. split; [exact Hv|]. split; [exact Hidx|].
  exact (computeCatalan_Catalan 19 4 _ 4%nat H0 Hv Hidx).
Defined.

Lemma Catalan_below_19 i : (i ≤ 18)%nat → Catalan i < MODULO.
Proof.
  intros Hi. assert (i ∈ seq 0 19) as Hin by (apply elem_of_seq; lia).
  clear Hi. revert i Hin. apply Forall_forall.
  apply (bool_decide_unpack _). by vm_compute.
Qed.

(** X2: the reduction first takes effect at index 19: the elements 0 to 18
    of the returned sequence are the Catalan numbers themselves, and
    element 19 is C_19 - 1000000007 = 767263183, since C_19 = 1767263190
    is the first Catalan number above the modulus. *)
Theorem computeCatalan_first_reduction fuel limit v :
  0 ≤ limit → computeCatalan fuel limit = Ok v →
  (∀ idx, (idx ≤ 18)%nat → (idx ≤ Z.to_nat limit)%nat →
          v !! idx = Some (Catalan idx)) ∧
  (19 ≤ limit →
   v !! 19%nat = Some (Catalan 19 - MODULO) ∧
   Catalan 19 = 1767263190 ∧ Catalan 19 - MODULO = 767263183).
Proof.
  intros H0 Hv.
  destruct (computeCatalan_Ok_complete fuel limit v H0 Hv) as [_ Hc]. split.
  - intros idx H18 Hidx. rewrite (complete_Catalan _ _ idx Hc Hidx). f_equal.
    apply Z.mod_small. split; [apply Catalan_nonneg|by apply Catalan_below_19].
  - intros H19. rewrite (complete_Catalan _ _ 19%nat Hc) by lia.
    split; [|split]; by vm_compute.
Qed.

Lemma computeCatalan_first_reduction_witness :
  0 ≤ 4 ∧ computeCatalan 19 4 = Ok [1; 1; 2; 5; 14] ∧
  [1; 1; 2; 5; 14] !! 3%nat = Some (Catalan 3).
Proof.
  assert (0 ≤ 4) as H0 by lia.
  assert (computeCatalan 19 4 = Ok [1; 1; 2; 5; 14]) as Hv by reflexivity.
  split; [exact H0|]. split; [exact Hv|].
  apply (proj1 (computeCatalan_first_reduction 19 4 _ H0 Hv) 3%nat); cbn; lia.
Defined.

(** ** The table is filled from left to right *)

Lemma table_inv_agree L L' c i k v j :
  table_inv L c i k → complete L' v → (j < i)%nat → (j ≤ L')%nat →
  c !! j = v !! j.
Proof.
  intros Hc Hv. induction (lt_wf j) as [j _ IH]. intros Hi Hj.
  destruct (decide (j = 0%nat)) as [->|Hpos].
  - by rewrite (inv_base _ _ _ _ Hc), (inv_base _ _ _ _ Hv).
  - rewrite (inv_done _ _ _ _ Hc j), (inv_done _ _ _ _ Hv j) by lia.
    f_equal. apply partial_ext; [done|].
    intros n Hn. unfold entry. by rewrite (IH n) by lia.
Qed.

(** X3: in every state of a run that returns, the table has its final
    length, the elements below the index idx of the outer loop already
    have the values that are returned, and the elements above idx are
    still 0: only the element at idx is in progress. *)
Theorem computeCatalan_fills_left_to_right limit n c fuel v :
  0 ≤ limit → reaches limit n c → computeCatalan fuel limit = Ok v →
  1 ≤ index_of c ≤ limit + 1 ∧
  length (table_of c) = length v ∧
  (∀ j, (j < Z.to_nat (index_of c))%nat → table_of c !! j = v !! j) ∧
  (∀ j, (Z.to_nat (index_of c) < j ≤ Z.to_nat limit)%nat →
        table_of c !! j = Some 0).
Proof.
  intros H0 Hc Hv.
  destruct (reaches_inv limit n c H0 Hc) as [Hlt Hinv].
  destruct (computeCatalan_Ok_complete fuel limit v H0 Hv) as [_ Hcv].
  pose proof (inv_length _ _ _ _ Hcv) as Hlen.
  assert (∃ k, 1 ≤ index_of c ≤ limit + 1 ∧
            table_inv (Z.to_nat limit) (table_of c) (Z.to_nat (index_of c)) k)
    as (k & Hidx & Ht).
  { destruct c as [t idx|t idx k]; cbn in *.
    - exists 0%nat. by destruct Hinv.
    - exists (Z.to_nat k). destruct Hinv as (? & ? & ?). split; [lia|done]. }
  split; [done|]. split; [by rewrite (inv_length _ _ _ _ Ht)|]. split.
  - intros j Hj. apply (table_inv_agree _ _ _ _ _ _ _ Ht Hcv); lia.
  - intros j Hj. by apply (inv_rest _ _ _ _ Ht).
Qed.

Lemma computeCatalan_fills_left_to_right_witness :
  0 ≤ 4 ∧ reaches 4 9 (Inner [1; 1; 2; 2; 0] 3 1) ∧
  computeCatalan 19 4 = Ok [1; 1; 2; 5; 14] ∧
  (∀ j, (j < Z.to_nat 3)%nat → [1; 1; 2; 2; 0] !! j = [1; 1; 2; 5; 14] !! j) ∧
  (∀ j, (Z.to_nat 3 < j ≤ Z.to_nat 4)%nat → [1; 1; 2; 2; 0] !! j = Some 0).
Proof.
  assert (0 ≤ 4) as H0 by lia.
  assert (reaches 4 9 (Inner [1; 1; 2; 2; 0] 3 1)) as Hc by reflexivity.
  assert (computeCatalan 19 4 = Ok [1; 1; 2; 5; 14]) as Hv by reflexivity.
  split; [exact H0|]. split; [exact Hc|]. split; [exact Hv|].
  exact (proj2 (proj2 (computeCatalan_fills_left_to_right 4 9 _ 19 _ H0 Hc Hv))).
Defined.

(** ** The printing loop of [main] *)

Lemma string_app_nil_r (s : string) : s +:+ "" = s.
Proof.
  induction s as [|a s IH]; [done|].
  change (String a s +:+ "") with (String a (s +:+ "")). by rewrite IH.
Qed.

Lemma string_app_assoc (s1 s2 s3 : string) :
  s1 +:+ s2 +:+ s3 = (s1 +:+ s2) +:+ s3.
Proof.
  induction s1 as [|a s1 IH]; [done|].
  change (String a s1 +:+ s2 +:+ s3) with (String a (s1 +:+ s2 +:+ s3)).
  by rewrite IH.
Qed.

Lemma printed_line_cons x l :
  printed_line (x :: l) = printed x +:+ printed_line l.
Proof. reflexivity. Qed.

(** The state after [d] rounds from [m], while the loop stays inside both
    its bound and the table. *)
Lemma print_steps result maxN d :
  ∀ m out,
    1 ≤ m → m + Z.of_nat d ≤ maxN + 1 → m + Z.of_nat d ≤ INT_MAX →
    (d ≠ 0%nat → m + Z.of_nat d ≤ Z.of_nat (length result)) →
    steps (print_step result maxN) d (out, m)
    = Ok (inl (out +:+ printed_line (take d (drop (Z.to_nat m) result)),
               m + Z.of_nat d)).
Proof.
  unfold INT_MAX. induction d as [|d IH]; intros m out Hm Hmax Hint Hlen.
  - cbn [steps take]. change (printed_line []) with "".
    by rewrite string_app_nil_r, Z.add_0_r.
  - specialize (Hlen ltac:(done)).
    cbn [steps print_step]. destruct (Z.leb_spec m maxN); [|lia].
    rewrite (vec_read_Ok result m (entry result (Z.to_nat m)))
      by (try apply lookup_entry; lia).
    rewrite bind_Ok. unfold int_add.
    rewrite as_int_Ok by (unfold INT_MIN, INT_MAX; lia).
    rewrite !bind_Ok. rewrite IH by lia.
    rewrite (drop_S result (entry result (Z.to_nat m)) (Z.to_nat m))
      by (apply lookup_entry; lia).
    cbn [take]. rewrite printed_line_cons.
    replace (Z.to_nat (m + 1)) with (Datatypes.S (Z.to_nat m)) by lia.
    do 3 f_equal; [|lia]. unfold printed.
    by rewrite <- !string_app_assoc.
Qed.

(** The run of the loop on a table that is long enough. *)
Lemma print_run result maxN :
  0 ≤ maxN < INT_MAX → maxN < Z.of_nat (length result) →
  ∀ fuel,
    run (print_step result maxN) fuel ("", 1)
    = if decide (maxN < Z.of_nat fuel)
      then Ok (printed_line (take (Z.to_nat maxN) (drop 1 result)))
      else OutOfFuel.
Proof.
  intros HmaxN Hlen fuel.
  pose proof (print_steps result maxN (Z.to_nat maxN) 1 "") as Hsteps.
  rewrite Z2Nat.id in Hsteps by lia.
  specialize (Hsteps ltac:(lia) ltac:(lia) ltac:(lia) ltac:(lia)).
  change (Z.to_nat 1) with 1%nat in Hsteps. cbn ["+:+"] in Hsteps.
  assert (run (print_step result maxN) (Z.to_nat maxN) ("", 1) = OutOfFuel)
    as Hbefore by (unfold run; by rewrite Hsteps).
  assert (run (print_step result maxN) (Z.to_nat maxN + 1) ("", 1)
          = Ok (printed_line (take (Z.to_nat maxN) (drop 1 result))))
    as Hlast.
  { unfold run. rewrite steps_add, Hsteps. cbn.
    destruct (Z.leb_spec (1 + maxN) maxN); [lia|done]. }
  destruct (decide (maxN < Z.of_nat fuel)).
  - rewrite <- Hlast. apply run_more_fuel; [congruence|lia].
  - eapply run_less_fuel; [exact Hbefore|lia].
Qed.

(** X4: on a table with more than maxN elements, for an [int] maxN with
    0 <= maxN < 2147483647, the printing loop of main returns after exactly
    maxN + 1 tests of its condition; the text is the elements 1 to maxN of
    the table in this order, each followed by one space: element 0 and the
    elements after maxN are not written. *)
Theorem print_loop_output result maxN :
  0 ≤ maxN < INT_MAX → maxN < Z.of_nat (length result) →
  ∀ fuel,
    run (print_step result maxN) fuel ("", 1)
    = if decide (maxN < Z.of_nat fuel)
      then Ok (printed_line (take (Z.to_nat maxN) (drop 1 result)))
      else OutOfFuel.
Proof. exact (print_run result maxN). Qed.

Lemma print_loop_output_witness :
  0 ≤ 2 < INT_MAX ∧ 2 < Z.of_nat (length [7; 8; 9; 10]) ∧
  run (print_step [7; 8; 9; 10] 2) 3 ("", 1) = Ok "8 9 ".
Proof.
  assert (0 ≤ 2 < INT_MAX) as H by (unfold INT_MAX; lia).
  assert (2 < Z.of_nat (length [7; 8; 9; 10])) as Hlen by (cbn; lia).
  split; [exact H|]. split; [exact Hlen|].
  exact (print_loop_output [7; 8; 9; 10] 2 H Hlen 3%nat).
Defined.



(** ** [computeCatalan] followed by the printing loop *)

Lemma complete_tail_Catalan L v :
  complete L v →
  take L (drop 1 v) = map (λ i, Catalan i `mod` MODULO) (seq 1 L).
Proof.
  intros Hv. pose proof (inv_length _ _ _ _ Hv) as Hlen.
  apply list_eq. intros i. rewrite list_lookup_fmap.
  destruct (decide (i < L)%nat) as [Hi|Hi].
  - rewrite lookup_take_lt, lookup_drop, lookup_seq_lt by done.
    by rewrite (complete_Catalan L v (1 + i)) by (done || lia).
  - rewrite lookup_take_ge, lookup_seq_ge by lia. done.
Qed.

(** X6: the table that computeCatalan(maxN) returns is long enough for the
    printing loop with the same maxN, for every maxN with 0 <= maxN <
    2147483647: the loop returns after maxN + 1 tests and has written the
    Catalan numbers C_1, ..., C_maxN reduced modulo 1000000007, each
    followed by a space (for maxN = 3 the text is "1 2 5 ").  With maxN =
    100 this is what main writes, followed by the newline character
    (code 10). *)
Theorem main_prints_Catalan :
  (∀ maxN, 0 ≤ maxN < INT_MAX →
     ∃ result, returns maxN result ∧
       ∀ fuel, run (print_step result maxN) fuel ("", 1)
               = if decide (maxN < Z.of_nat fuel)
                 then Ok (printed_line
                            (map (λ i, Catalan i `mod` MODULO)
                                 (seq 1 (Z.to_nat maxN))))
                 else OutOfFuel) ∧
  (∃ N, ∀ fuel, (N ≤ fuel)%nat →
     main fuel
     = Ok (printed_line (map (λ i, Catalan i `mod` MODULO) (seq 1 100))
           +:+ String "010"%char "", 0)) ∧
  printed_line (map (λ i, Catalan i `mod` MODULO) (seq 1 20))
  = "1 2 5 14 42 132 429 1430 4862 16796 58786 208012 742900 2674440 " +:+
    "9694845 35357670 129644790 477638700 767263183 564120378 ".
Proof.
  assert (∀ maxN, 0 ≤ maxN < INT_MAX →
     ∃ result, returns maxN result ∧
       ∀ fuel, run (print_step result maxN) fuel ("", 1)
               = if decide (maxN < Z.of_nat fuel)
                 then Ok (printed_line
                            (map (λ i, Catalan i `mod` MODULO)
                                 (seq 1 (Z.to_nat maxN))))
                 else OutOfFuel) as Hgen.
  { intros maxN HmaxN.
    destruct (computeCatalan_returns maxN HmaxN) as (result & Hret & Hc).
    exists result. split; [done|]. intros fuel.
    pose proof (inv_length _ _ _ _ Hc) as Hlen.
    rewrite print_run by lia.
    by rewrite (complete_tail_Catalan _ _ Hc). }
  split; [exact Hgen|]. split; [|by vm_compute].
  destruct (Hgen 100) as (result & [N Hret] & Hrun); [by compute|].
  exists (N `max` 101)%nat. intros fuel Hfuel. unfold main.
  rewrite Hret by lia. rewrite bind_Ok, Hrun.
  destruct (decide _); [|lia]. rewrite bind_Ok.
  change newline with (String "010"%char ""). reflexivity.
Qed.

Lemma main_prints_Catalan_witness :
  0 ≤ 3 < INT_MAX ∧
  ∃ result, returns 3 result ∧
    run (print_step result 3) 4 ("", 1) = Ok "1 2 5 ".
Proof.
  assert (0 ≤ 3 < INT_MAX) as H by (unfold INT_MAX; lia).
  split; [exact H|].
  destruct (proj1 main_prints_Catalan 3 H) as (result & Hret & Hrun).
  exists result. split; [exact Hret | exact (Hrun 4%nat)].
Defined.

(** ** The characters of the output *)

Section RunInvariant.
Context {S R : Type} (step : S → outcome (S + R)).
Context (inv : S → Prop) (post : R → Prop).

Hypothesis inv_step : ∀ s s', inv s → step s = Ok (inl s') → inv s'.
Hypothesis inv_return : ∀ s v, inv s → step s = Ok (inr v) → post v.

(** What a run returns, if it returns, from a state of an invariant. *)
Lemma run_invariant fuel s v : inv s → run step fuel s = Ok v → post v.
Proof.
  unfold run. revert s. induction fuel as [|fuel IH]; intros s Hs; [done|].
  cbn [steps]. destruct (step s) as [[s'|w]|u|e|] eqn:Hstep; cbn; try done.
  - apply IH. by eapply inv_step.
  - intros [= <-]. by eapply inv_return.
Qed.
End RunInvariant.

Lemma chars_app s1 s2 : chars (s1 +:+ s2) = chars s1 ++ chars s2.
Proof.
  induction s1 as [|a s1 IH]; [done|].
  change (chars (String a s1 +:+ s2)) with (a :: chars (s1 +:+ s2)).
  by rewrite IH.
Qed.

Lemma pretty_N_char_digit x : is_digit (pretty_N_char x).
Proof.
  unfold pretty_N_char, is_digit. repeat case_match; vm_compute; lia.
Qed.

Lemma pretty_N_go_digits x s :
  Forall is_digit (chars s) → Forall is_digit (chars (pretty_N_go x s)).
Proof.
  revert s. induction (N.lt_wf_0 x) as [x _ IH]; intros s Hs.
  destruct (decide (x = 0%N)) as [->|Hx]; [by rewrite pretty_N_go_0|].
  rewrite pretty_N_go_step by lia. apply IH.
  - apply N.div_lt; lia.
  - constructor; [apply pretty_N_char_digit|done].
Qed.

(** A value that is not negative is written with digits only. *)
Lemma show_llong_digits x : 0 ≤ x → Forall is_digit (chars (show_llong x)).
Proof.
  intros Hx. destruct x as [|p|p]; [|clear Hx|lia].
  - constructor; [cbv; lia|constructor].
  - unfold show_llong, pretty, pretty_Z, pretty, pretty_positive, pretty,
      pretty_N.
    destruct (decide _) as [|_]; [done|].
    apply pretty_N_go_digits. constructor.
Qed.

(** X7: whatever maxN and the fuel are, a text that the printing loop
    returns for a table returned by computeCatalan consists of decimal
    digits and spaces only: no minus sign is ever written, and no newline
    before the final one. *)
Theorem print_loop_digits_and_spaces fuel limit result maxN fuel' out :
  computeCatalan fuel limit = Ok result → 0 ≤ limit →
  run (print_step result maxN) fuel' ("", 1) = Ok out →
  Forall (λ c, is_digit c ∨ c = " "%char) (chars out).
Proof.
  intros Hres H0.
  destruct (computeCatalan_Ok_complete fuel limit result H0 Hres) as [_ Hc].
  pose proof (inv_range _ _ _ _ Hc) as Hrange.
  apply (run_invariant (print_step result maxN)
           (λ s, Forall (λ c, is_digit c ∨ c = " "%char) (chars s.1))
           (λ v, Forall (λ c, is_digit c ∨ c = " "%char) (chars v))).
  - intros [o m] [o' m'] Ho. cbn [print_step fst].
    destruct (m <=? maxN); [|done]. unfold vec_read.
    destruct (result !! _) as [x|] eqn:Hx; [|done]. rewrite bind_Ok.
    destruct (int_add m 1); [|done..]. rewrite bind_Ok. intros [= <- <-].
    rewrite !chars_app. apply Forall_app. split; [done|].
    apply Forall_app. split; [|by repeat constructor; right].
    eapply Forall_impl; [apply show_llong_digits|by left].
    by apply (Forall_lookup_1 _ _ _ _ Hrange Hx).
  - intros [o m] v Ho. cbn [print_step fst].
    destruct (m <=? maxN); [|by intros [= <-]]. unfold vec_read.
    destruct (result !! _); [|done]. rewrite bind_Ok.
    destruct (int_add m 1); done.
  - constructor.
Qed.

Lemma print_loop_digits_and_spaces_witness :
  computeCatalan 19 4 = Ok [1; 1; 2; 5; 14] ∧ 0 ≤ 4 ∧
  run (print_step [1; 1; 2; 5; 14] 4) 5 ("", 1) = Ok "1 2 5 14 " ∧
  Forall (λ c, is_digit c ∨ c = " "%char) (chars "1 2 5 14 ").
Proof.
  assert (computeCatalan 19 4 = Ok [1; 1; 2; 5; 14]) as Hv by reflexivity.
  assert (0 ≤ 4) as H0 by lia.
  assert (run (print_step [1; 1; 2; 5; 14] 4) 5 ("", 1) = Ok "1 2 5 14 ")
    as Hout by reflexivity.
  split; [exact Hv|]. split; [exact H0|]. split; [exact Hout|].
  exact (print_loop_digits_and_spaces 19 4 _ 4 5 _ Hv H0 Hout).
Defined.

(** ** The output determines the values *)

Lemma chars_inj s1 s2 : chars s1 = chars s2 → s1 = s2.
Proof.
  intros H. rewrite <- (String.string_of_list_ascii_of_string s1),
    <- (String.string_of_list_ascii_of_string s2).
  unfold chars in H. by rewrite H.
Qed.

Lemma split_at_space (l1 l2 r1 r2 : list ascii) :
  Forall is_digit l1 → Forall is_digit l2 →
  l1 ++ " "%char :: r1 = l2 ++ " "%char :: r2 → l1 = l2 ∧ r1 = r2.
Proof.
  assert (¬ is_digit " "%char) as Hsp by (vm_compute; lia).
  revert l2. induction l1 as [|a l1 IH]; intros [|b l2] H1 H2 Heq.
  - by simplify_eq/=.
  - simplify_eq/=. by inversion H2.
  - simplify_eq/=. by inversion H1.
  - inversion H1; inversion H2; simplify_eq/=.
    destruct (IH l2) as [-> ->]; done.
Qed.

Lemma printed_line_inj l1 l2 :
  Forall (λ x, 0 ≤ x) l1 → Forall (λ x, 0 ≤ x) l2 →
  printed_line l1 = printed_line l2 → l1 = l2.
Proof.
  revert l2. induction l1 as [|x l1 IH]; intros [|y l2] H1 H2 Heq.
  - done.
  - apply (f_equal chars) in Heq. rewrite printed_line_cons in Heq.
    unfold printed in Heq. rewrite !chars_app in Heq.
    by destruct (chars (show_llong y)).
  - apply (f_equal chars) in Heq. rewrite printed_line_cons in Heq.
    unfold printed in Heq. rewrite !chars_app in Heq.
    by destruct (chars (show_llong x)).
  - inversion H1; inversion H2; subst.
    apply (f_equal chars) in Heq. rewrite !printed_line_cons in Heq.
    unfold printed in Heq. rewrite !chars_app, <- !app_assoc in Heq.
    apply split_at_space in Heq as [Hxy Hrest];
      [|by apply show_llong_digits..].
    apply chars_inj in Hxy. apply chars_inj in Hrest.
    apply (inj pretty) in Hxy as ->. f_equal. by apply IH.
Qed.

(** X8: the text of the printing loop determines the values it was written
    from: two tables of non-negative values, each with more than maxN
    elements, for which the loop returns the same text have the same
    elements 1 to maxN. *)
Theorem print_loop_unambiguous result1 result2 maxN fuel1 fuel2 out :
  0 ≤ maxN < INT_MAX →
  maxN < Z.of_nat (length result1) → maxN < Z.of_nat (length result2) →
  Forall (λ x, 0 ≤ x) result1 → Forall (λ x, 0 ≤ x) result2 →
  run (print_step result1 maxN) fuel1 ("", 1) = Ok out →
  run (print_step result2 maxN) fuel2 ("", 1) = Ok out →
  take (Z.to_nat maxN) (drop 1 result1) = take (Z.to_nat maxN) (drop 1 result2).
Proof.
  intros HmaxN Hl1 Hl2 Hp1 Hp2 Ho1 Ho2.
  rewrite print_run in Ho1, Ho2 by done.
  destruct (decide _); [|done]. destruct (decide _); [|done].
  apply printed_line_inj.
  - by apply Forall_take, Forall_drop.
  - by apply Forall_take, Forall_drop.
  - congruence.
Qed.

Lemma print_loop_unambiguous_witness :
  0 ≤ 2 < INT_MAX ∧
  run (print_step [7; 8; 9; 10] 2) 3 ("", 1) = Ok "8 9 " ∧
  run (print_step [0; 8; 9] 2) 5 ("", 1) = Ok "8 9 " ∧
  take (Z.to_nat 2) (drop 1 [7; 8; 9; 10]) = take (Z.to_nat 2) (drop 1 [0; 8; 9]).
Proof.
  assert (0 ≤ 2 < INT_MAX) as H by (unfold INT_MAX; lia).
  assert (run (print_step [7; 8; 9; 10] 2) 3 ("", 1) = Ok "8 9 ") as H1
    by reflexivity.
  assert (run (print_step [0; 8; 9] 2) 5 ("", 1) = Ok "8 9 ") as H2
    by reflexivity.
  split; [exact H|]. split; [exact H1|]. split; [exact H2|].
  apply (print_loop_unambiguous _ _ 2 3 5 "8 9 " H);
    first [exact H1 | exact H2 | cbn; lia | repeat constructor; lia].
Defined.
